(** * clean_config.py: stripping version comments from essenceTap.js

    A shallow embedding of [clean_config.py] and the properties of its two
    regular-expression substitutions and of its read / transform / write /
    report pipeline.

    - A Python [str] is a sequence of Unicode code points: [list N].
    - [re.sub] is modelled by a backtracking matcher for the fragment of the
      [re] syntax the script uses (single-character atoms, greedy [*] over an
      atom, and [$] under [re.MULTILINE]) and by the left-to-right scan for
      non-overlapping matches.
    - The file system and standard output are explicit state, threaded
      through a small state-and-exception monad. *)

From Stdlib Require Import NArith Ascii String.
From stdpp Require Import base option list strings gmap.

Local Open Scope N_scope.
Local Open Scope nat_scope.

(** ** Text *)

Abbreviation char := N (only parsing).
Abbreviation str := (list N) (only parsing).

(** The code point of an ASCII character, and the text of a literal. *)
Definition chr (a : ascii) : char := N_of_ascii a.

Definition lit (s : string) : str := chr <$> list_ascii_of_string s.

Definition newline : char := 10%N.
Definition space : char := 32%N.

(** ** The fragment of [re] used by the script *)

Module Re.

(** A single-character matcher: a literal, a range [[lo-hi]], or [.] which
    without [re.DOTALL] accepts everything except a newline. *)
Inductive cls :=
  | Lit (c : char)
  | Range (lo hi : char)
  | Dot.

Definition accepts (c : cls) (x : char) : bool :=
  match c with
  | Lit a => N.eqb x a
  | Range lo hi => N.leb lo x && N.leb x hi
  | Dot => negb (N.eqb x newline)
  end.

(** A pattern is a sequence of items: an atom, an atom under greedy [*],
    or the anchor [$]. *)
Inductive item :=
  | One (c : cls)
  | Star (c : cls)
  | Eol.

Abbreviation pattern := (list item) (only parsing).

(** [$] under [re.MULTILINE]: at the end of the text and just before each
    newline. *)
Definition at_eol (s : str) : bool :=
  match s with
  | [] => true
  | x :: _ => N.eqb x newline
  end.

(** Greedy repetition of [c], then the continuation [k]: take as many
    characters as possible and give them back one at a time while [k]
    fails.  The result counts the characters consumed. *)
Fixpoint star (c : cls) (k : str → option nat) (s : str) : option nat :=
  match s with
  | x :: s' =>
      if accepts c x then
        match star c k s' with
        | Some n => Some (S n)
        | None => k s
        end
      else k s
  | [] => k []
  end.

(** Match the pattern at the head of [s]; [Some n] when it matches the
    first [n] characters. *)
Fixpoint match_here (re : pattern) (s : str) : option nat :=
  match re with
  | [] => Some 0
  | One c :: re' =>
      match s with
      | x :: s' => if accepts c x then S <$> match_here re' s' else None
      | [] => None
      end
  | Star c :: re' => star c (match_here re') s
  | Eol :: re' => if at_eol s then match_here re' s else None
  end.

(** The scan of [re.sub]: [skip] counts the characters of the current match
    still to be dropped.  At each position outside a match the pattern is
    tried; a match is replaced by [repl] and the scan resumes after it; an
    unmatched character is copied.  An empty match is replaced and the
    character after it copied, also at the end of the text. *)
Fixpoint sub_from (re : pattern) (repl : str) (skip : nat) (s : str) : str :=
  match s with
  | [] =>
      match skip with
      | 0 => match match_here re [] with Some _ => repl | None => [] end
      | S _ => []
      end
  | x :: s' =>
      match skip with
      | S k => sub_from re repl k s'
      | 0 =>
          match match_here re s with
          | Some (S n) => repl ++ sub_from re repl n s'
          | Some 0 => repl ++ x :: sub_from re repl 0 s'
          | None => x :: sub_from re repl 0 s'
          end
      end
  end.

(** [re.sub(re, repl, s, flags=re.MULTILINE)]. *)
Definition sub (re : pattern) (repl : str) (s : str) : str :=
  sub_from re repl 0 s.

End Re.

Import Re.

(** ** The script *)

Definition input_file : string := "backend/config/essenceTap.js".
Definition output_file : string := "backend/config/essenceTap.js".

(** [r' *// v[0-9]\.[0-9]:.*$'] *)
Definition pattern1 : list item :=
  [ Star (Lit (chr " "));
    One (Lit (chr "/")); One (Lit (chr "/")); One (Lit (chr " "));
    One (Lit (chr "v"));
    One (Range (chr "0") (chr "9")); One (Lit (chr "."));
    One (Range (chr "0") (chr "9")); One (Lit (chr ":"));
    Star Dot; Eol ].

(** [r' *// was .*$'] *)
Definition pattern2 : list item :=
  [ Star (Lit (chr " "));
    One (Lit (chr "/")); One (Lit (chr "/")); One (Lit (chr " "));
    One (Lit (chr "w")); One (Lit (chr "a")); One (Lit (chr "s"));
    One (Lit (chr " "));
    Star Dot; Eol ].

(** Line 15: the first substitution. *)
Definition strip_version (content : str) : str := sub pattern1 [] content.

(** Line 18: the second substitution. *)
Definition strip_was (content : str) : str := sub pattern2 [] content.

(** Lines 15-18: what happens to [content] between the read and the write. *)
Definition clean (content : str) : str :=
  let content := strip_version content in
  let content := strip_was content in
  content.

(** ** Files and standard output *)

(** The exceptions the built-in [open] and [read] raise in this script. *)
Inductive exn :=
  | FileNotFoundError
  | PermissionError
  | UnicodeDecodeError.

(** What a file holds, seen through text mode with [encoding='utf-8']: the
    text a read returns (bytes decoded, line endings translated to a
    newline), or bytes that are not valid UTF-8. *)
Inductive payload :=
  | Text (s : str)
  | NotUtf8.

Record inode := Inode {
  readable : bool;
  writable : bool;
  body : payload
}.

(** The part of the environment the script touches: files by path, and the
    lines printed so far. *)
Record world := World {
  fs : gmap string inode;
  stdout : list string
}.

(** A computation changes the world and either returns or raises; what was
    done before an exception stays done. *)
Definition IO (A : Type) : Type := world → (exn + A) * world.

#[export] Instance IO_ret : MRet IO := λ A (a : A) w, (inr a, w).

#[export] Instance IO_bind : MBind IO := λ A B (k : A → IO B) (m : IO A) w,
  match m w with
  | (inr a, w') => k a w'
  | (inl e, w') => (inl e, w')
  end.

Definition raise {A} (e : exn) : IO A := λ w, (inl e, w).

Definition set_body (f : inode) (b : payload) : inode :=
  {| readable := readable f; writable := writable f; body := b |}.

(** [open(path, 'r', encoding='utf-8')]: the file must exist and be
    readable.  The handle is the file itself. *)
Definition open_r (path : string) : IO inode := λ w,
  match fs w !! path with
  | None => (inl FileNotFoundError, w)
  | Some f => if readable f then (inr f, w) else (inl PermissionError, w)
  end.

(** [f.read()]: the whole text, when the bytes decode. *)
Definition read (f : inode) : IO str :=
  match body f with
  | Text s => mret s
  | NotUtf8 => raise UnicodeDecodeError
  end.

(** [open(path, 'w', encoding='utf-8')]: an existing file must be writable
    and is truncated; a missing one is created (directories are not
    modelled). *)
Definition open_w (path : string) : IO unit := λ w,
  match fs w !! path with
  | None =>
      (inr (), {| fs := <[path := Inode true true (Text [])]> (fs w);
                  stdout := stdout w |})
  | Some f =>
      if writable f then
        (inr (), {| fs := <[path := set_body f (Text [])]> (fs w);
                    stdout := stdout w |})
      else (inl PermissionError, w)
  end.

(** [f.write(s)] on the file opened at [path], flushed when the [with]
    block closes it: the text is appended to the (truncated) file. *)
Definition write (path : string) (s : str) : IO unit := λ w,
  match fs w !! path with
  | Some (Inode r x (Text old)) =>
      (inr (), {| fs := <[path := Inode r x (Text (old ++ s))]> (fs w);
                  stdout := stdout w |})
  | _ => (inr (), w)
  end.

(** [print(line)]. *)
Definition print (line : string) : IO unit := λ w,
  (inr (), {| fs := fs w; stdout := stdout w ++ [line] |}).

(** The script, top to bottom. *)
Definition main : IO unit :=
  f ← open_r input_file;
  content ← read f;
  let content := sub pattern1 [] content in
  let content := sub pattern2 [] content in
  open_w output_file;;
  write output_file content;;
  print ("Cleaned config file: " +:+ output_file);;
  print "Removed all inline version comments".

(** The two lines of the completion report. *)
Definition report : list string :=
  [ "Cleaned config file: backend/config/essenceTap.js";
    "Removed all inline version comments" ].

(** The ways the read of lines 10-11 fails. *)
Inductive read_fails (w : world) : exn → Prop :=
  | read_missing :
      fs w !! input_file = None → read_fails w FileNotFoundError
  | read_denied f :
      fs w !! input_file = Some f → readable f = false →
      read_fails w PermissionError
  | read_not_utf8 f :
      fs w !! input_file = Some f → readable f = true → body f = NotUtf8 →
      read_fails w UnicodeDecodeError.

(** ** Lines *)

(** [s.split('\n')]: the lines of a text; a text with [n] newlines has
    [n + 1] lines, the last one possibly empty. *)
Fixpoint lines (s : str) : list str :=
  match s with
  | [] => [[]]
  | x :: s' =>
      if N.eqb x newline then [] :: lines s'
      else match lines s' with
           | l :: ls => (x :: l) :: ls
           | [] => [[x]]
           end
  end.

(** ['\n'.join(ls)] *)
Fixpoint unlines (ls : list str) : str :=
  match ls with
  | [] => []
  | [l] => l
  | l :: ls' => l ++ newline :: unlines ls'
  end.

(** ** The two comment shapes, in the words of the specification *)

Definition is_digit (x : char) : Prop := (chr "0" ≤ x ∧ x ≤ chr "9")%N.

(** Zero or more spaces, [// v], a digit, [.], a digit, [:], then anything. *)
Definition version_comment (t : str) : Prop :=
  ∃ (k : nat) (d1 d2 : char) (rest : str),
    is_digit d1 ∧ is_digit d2 ∧
    t = replicate k space ++ lit "// v" ++ d1 :: lit "." ++ d2 :: lit ":" ++ rest.

(** Zero or more spaces, [// was ] (with its final space), then anything. *)
Definition was_comment (t : str) : Prop :=
  ∃ (k : nat) (rest : str), t = replicate k space ++ lit "// was " ++ rest.

(** [out] is [line] without its longest suffix of shape [P], or [line]
    itself when no suffix has that shape. *)
Definition strips (P : str → Prop) (line out : str) : Prop :=
  (∃ t, line = out ++ t ∧ P t ∧
        ∀ t', t' `suffix_of` line → P t' → length t' ≤ length t)
  ∨ (out = line ∧ ∀ t', t' `suffix_of` line → ¬ P t').

(** ** Notions used in the proofs *)

(** A text without a newline: a single line. *)
Definition one_line (s : str) : Prop := newline ∉ s.

(** A pattern none of whose atoms accepts a newline: its matches stay
    within a line. *)
Definition line_local (re : list item) : Prop :=
  Forall (λ it, match it with
                | One c | Star c => accepts c newline = false
                | Eol => True
                end) re.

(** Both patterns of the script have the shape [ *<marker>.*$]. *)
Definition comment_re (marker : list cls) : list item :=
  Star (Lit space) :: (One <$> marker) ++ [Star Dot; Eol].

Definition marker1 : list cls :=
  [ Lit (chr "/"); Lit (chr "/"); Lit (chr " "); Lit (chr "v");
    Range (chr "0") (chr "9"); Lit (chr "."); Range (chr "0") (chr "9");
    Lit (chr ":") ].

Definition marker2 : list cls :=
  [ Lit (chr "/"); Lit (chr "/"); Lit (chr " "); Lit (chr "w");
    Lit (chr "a"); Lit (chr "s"); Lit (chr " ") ].

(** A marker that can follow the run of spaces without ambiguity: it is not
    empty, does not start with a space and has no newline. *)
Definition marker_ok (marker : list cls) : Prop :=
  (∃ c cs, marker = c :: cs ∧ accepts c space = false)
  ∧ Forall (λ c, accepts c newline = false) marker.

(** [s] starts with characters accepted by [cs], one by one. *)
Fixpoint starts (cs : list cls) (s : str) : bool :=
  match cs, s with
  | [], _ => true
  | c :: cs', x :: s' => accepts c x && starts cs' s'
  | _ :: _, [] => false
  end.

(** [s] starts with spaces followed by the marker. *)
Fixpoint opens (cs : list cls) (s : str) : bool :=
  match s with
  | x :: s' => if N.eqb x space then opens cs s' else starts cs s
  | [] => starts cs []
  end.

(** Cut [s] at the first position from which [m] holds. *)
Fixpoint cut (m : str → bool) (s : str) : str :=
  match s with
  | [] => []
  | x :: s' => if m s then [] else x :: cut m s'
  end.

(** No suffix of [s] satisfies [m]. *)
Definition quiet (m : str → bool) (s : str) : Prop :=
  ∀ t, t `suffix_of` s → m t = false.

(** A check for [quiet], to run on a given line. *)
Fixpoint quietb (m : str → bool) (s : str) : bool :=
  match s with
  | [] => negb (m [])
  | _ :: s' => negb (m s) && quietb m s'
  end.

(** What the two substitutions do to one line. *)
Definition clean_line (l : str) : str :=
  cut (opens marker2) (cut (opens marker1) l).

(** A world with the configuration file, empty, and nothing else. *)
Definition empty_config : world :=
  {| fs := {[ input_file := Inode true true (Text []) ]}; stdout := [] |}.

(** A world with a one-line configuration file. *)
Definition sample_config : world :=
  {| fs := {[ input_file := Inode true true (Text (lit "retries: 3, // was retries: 5")) ]};
     stdout := [] |}.

(** [p] occurs somewhere in [s]. *)
Definition occurs (p s : str) : Prop := ∃ a b, s = a ++ p ++ b.

(** A check for [occurs]. *)
Fixpoint occursb (p s : str) : bool :=
  bool_decide (p `prefix_of` s)
  || match s with
     | [] => false
     | _ :: s' => occursb p s'
     end.

(** A world whose configuration file can be read but not written. *)
Definition read_only_config : world :=
  {| fs := {[ input_file := Inode true false (Text (lit "retries: 3, // was retries: 5")) ]};
     stdout := [] |}.


(** ** Tactics *)

(** Evaluate the literals of the goal. *)
Ltac eval_lits :=
  repeat match goal with
  | |- context [lit ?a] =>
      let v := eval vm_compute in (lit a) in change (lit a) with v
  | |- context [chr ?a] =>
      let v := eval vm_compute in (chr a) in change (chr a) with v
  | |- context [space] => change space with 32%N
  end.

Ltac split_andb :=
  repeat match goal with
  | H : _ && _ = true |- _ => apply andb_true_iff in H as [? ?]
  | H : N.eqb _ _ = true |- _ => apply N.eqb_eq in H; subst
  | H : N.leb _ _ = true |- _ => apply N.leb_le in H
  end.

(** ** The matcher *)

Section matcher.
Implicit Types (re : list item) (c : cls) (s t : str).

Lemma star_le c (k : str → option nat) :
  (∀ s n, k s = Some n → n ≤ length s) →
  ∀ s n, star c k s = Some n → n ≤ length s.
Proof.
  intros Hk. induction s as [|x s IH]; intros n; simpl.
  - apply Hk.
  - destruct (accepts c x); [|apply Hk].
    destruct (star c k s) as [m|] eqn:E; [|apply Hk].
    intros Hn. simplify_eq. specialize (IH m eq_refl). lia.
Qed.

Lemma match_here_le re : ∀ s n, match_here re s = Some n → n ≤ length s.
Proof.
  induction re as [|[c|c|] re IH]; intros s n; simpl.
  - intros Hn. simplify_eq. lia.
  - destruct s as [|x s]; [done|]. destruct (accepts c x); [|done].
    destruct (match_here re s) as [m|] eqn:E; [|done].
    intros Hn. simplify_eq/=. apply IH in E. lia.
  - apply star_le, IH.
  - destruct (at_eol s); [apply IH|done].
Qed.

Lemma one_line_cons x s : one_line (x :: s) ↔ x ≠ newline ∧ one_line s.
Proof. unfold one_line. rewrite not_elem_of_cons. intuition congruence. Qed.

Lemma one_line_nil : one_line [].
Proof. apply not_elem_of_nil. Qed.

Lemma star_newline c (k : str → option nat) t :
  accepts c newline = false →
  (∀ s, one_line s → k (s ++ newline :: t) = k s) →
  ∀ s, one_line s → star c k (s ++ newline :: t) = star c k s.
Proof.
  intros Hc Hk. induction s as [|x s IH]; intros Hs; simpl.
  - rewrite Hc. apply (Hk [] one_line_nil).
  - apply one_line_cons in Hs as [Hx Hs].
    rewrite IH by done.
    rewrite <-(Hk (x :: s)) by (by apply one_line_cons). done.
Qed.

Lemma match_here_newline re t :
  line_local re →
  ∀ s, one_line s → match_here re (s ++ newline :: t) = match_here re s.
Proof.
  induction 1 as [|[c|c|] re Hc Hre IH]; intros s Hs; simpl; [done|..].
  - destruct s as [|x s]; simpl; [by rewrite Hc|].
    apply one_line_cons in Hs as [_ Hs]. by rewrite IH.
  - by apply star_newline.
  - rewrite IH by done. destruct s as [|x s]; simpl; [done|].
    apply one_line_cons in Hs as [Hx _].
    by apply N.eqb_neq in Hx as ->.
Qed.

(** The scan works line by line. *)
Lemma sub_from_newline re repl t :
  line_local re →
  ∀ s k, one_line s → k ≤ length s →
    sub_from re repl k (s ++ newline :: t)
    = sub_from re repl k s ++ newline :: sub_from re repl 0 t.
Proof.
  intros Hre. induction s as [|x s IH]; intros k Hs Hk.
  - assert (k = 0) as -> by (simpl in Hk; lia).
    pose proof (match_here_newline re t Hre [] Hs) as Hm.
    cbn [app sub_from] in *. rewrite Hm.
    destruct (match_here re []) as [[|n]|] eqn:E; [done| |done].
    apply match_here_le in E. simpl in E. lia.
  - pose proof Hs as Hxs. apply one_line_cons in Hs as [Hx Hs].
    destruct k as [|k]; cbn [app sub_from].
    + pose proof (match_here_newline re t Hre _ Hxs) as Hm.
      cbn [app] in Hm. rewrite Hm.
      destruct (match_here re (x :: s)) as [[|n]|] eqn:E.
      * rewrite IH by (done || lia). by rewrite <-app_assoc.
      * apply match_here_le in E. simpl in E.
        rewrite IH by (done || lia). by rewrite <-app_assoc.
      * by rewrite IH by (done || lia).
    + simpl in Hk. apply IH; [done|lia].
Qed.

End matcher.

(** ** Lines *)

Section lines.
Implicit Types (s t l : str) (ls : list str).

Lemma one_line_app s t : one_line (s ++ t) ↔ one_line s ∧ one_line t.
Proof. apply not_elem_of_app. Qed.

Lemma one_line_prefix s t : s `prefix_of` t → one_line t → one_line s.
Proof. intros [u ->] Ht. by apply one_line_app in Ht as [? _]. Qed.

Lemma lines_one_line l : one_line l → lines l = [l].
Proof.
  induction l as [|x l IH]; intros Hl; simpl; [done|].
  apply one_line_cons in Hl as [Hx Hl].
  apply N.eqb_neq in Hx as ->. by rewrite IH.
Qed.

Lemma lines_newline l t :
  one_line l → lines (l ++ newline :: t) = l :: lines t.
Proof.
  induction l as [|x l IH]; intros Hl; simpl; [done|].
  apply one_line_cons in Hl as [Hx Hl].
  apply N.eqb_neq in Hx as ->. by rewrite IH.
Qed.

(** A text is one line, or a first line, a newline and more text. *)
Lemma first_line s :
  one_line s ∨ ∃ l t, s = l ++ newline :: t ∧ one_line l.
Proof.
  induction s as [|x s IH]; [left; apply one_line_nil|].
  destruct (N.eq_dec x newline) as [->|Hx].
  - right. exists [], s. split; [done|apply one_line_nil].
  - destruct IH as [Hs|(l & t & -> & Hl)].
    + left. by apply one_line_cons.
    + right. exists (x :: l), t. split; [done|by apply one_line_cons].
Qed.

(** Induction on a text, line by line. *)
Lemma line_ind (P : str → Prop) :
  (∀ l, one_line l → P l) →
  (∀ l t, one_line l → P t → P (l ++ newline :: t)) →
  ∀ s, P s.
Proof.
  intros Hone Hmore s.
  assert (∀ n, ∀ s, length s < n → P s) as Hall.
  { clear s. induction n as [|n IH]; intros s Hs; [lia|].
    destruct (first_line s) as [?|(l & t & -> & Hl)]; [by apply Hone|].
    apply Hmore; [done|]. apply IH.
    rewrite length_app in Hs. simpl in Hs. lia. }
  apply (Hall (S (length s))). lia.
Qed.

Lemma unlines_cons l ls : ls ≠ [] → unlines (l :: ls) = l ++ newline :: unlines ls.
Proof. by destruct ls. Qed.

Lemma lines_not_nil s : lines s ≠ [].
Proof.
  induction s as [|x s IH]; simpl; [done|].
  destruct (N.eqb x newline); [done|]. by destruct (lines s).
Qed.

Lemma unlines_lines s : unlines (lines s) = s.
Proof.
  induction s as [l Hl|l t Hl IH] using line_ind.
  - by rewrite lines_one_line.
  - rewrite lines_newline, unlines_cons, IH by auto using lines_not_nil. done.
Qed.

Lemma lines_unlines ls :
  ls ≠ [] → Forall one_line ls → lines (unlines ls) = ls.
Proof.
  intros Hne Hls. induction Hls as [|l ls Hl Hls IH]; [done|].
  destruct ls as [|l' ls]; [by apply lines_one_line|].
  rewrite unlines_cons by done. rewrite lines_newline by done.
  by rewrite IH.
Qed.

Lemma Forall_one_line_lines s : Forall one_line (lines s).
Proof.
  induction s as [l Hl|l t Hl IH] using line_ind.
  - rewrite lines_one_line by done. by constructor.
  - rewrite lines_newline by done. by constructor.
Qed.

Lemma lines_inj s t : lines s = lines t → s = t.
Proof. intros H. by rewrite <-(unlines_lines s), H, unlines_lines. Qed.

(** A text has one line more than it has newlines. *)
Lemma length_lines s :
  length (lines s) = S (length (filter (λ x, x = newline) s)).
Proof.
  induction s as [|x s IH]; simpl; [done|].
  rewrite filter_cons. destruct (N.eqb_spec x newline) as [->|Hx].
  - rewrite decide_True by done. simpl. by rewrite IH.
  - rewrite decide_False by done. rewrite <-IH.
    pose proof (lines_not_nil s). by destruct (lines s).
Qed.

End lines.

(** ** Patterns of the shape [ *<marker>.*$] *)

Section comment_re.
Implicit Types (cs marker : list cls) (s t : str).

Lemma starts_length cs s : starts cs s = true → length cs ≤ length s.
Proof.
  revert s. induction cs as [|c cs IH]; intros [|x s]; simpl; try done; try lia.
  intros [_ H]%andb_true_iff. apply IH in H. lia.
Qed.

Lemma starts_app cs s t : starts cs s = true → starts cs (s ++ t) = true.
Proof.
  revert s. induction cs as [|c cs IH]; intros [|x s]; simpl; try done.
  intros [-> H]%andb_true_iff. by apply IH.
Qed.

(** The marker itself: atom by atom. *)
Lemma match_ones cs (tl : list item) s :
  match_here ((One <$> cs) ++ tl) s
  = if starts cs s
    then (λ n, length cs + n) <$> match_here tl (drop (length cs) s)
    else None.
Proof.
  revert s. induction cs as [|c cs IH]; intros s; simpl.
  - rewrite drop_0. by destruct (match_here tl s).
  - destruct s as [|x s]; [done|]. simpl.
    destruct (accepts c x); [|done]. simpl. rewrite IH.
    destruct (starts cs s); [|done].
    by destruct (match_here tl (drop (length cs) s)).
Qed.

(** [.*$] takes the rest of the line. *)
Lemma match_rest s : one_line s → match_here [Star Dot; Eol] s = Some (length s).
Proof.
  induction s as [|x s IH]; intros Hs; [done|].
  apply one_line_cons in Hs as [Hx Hs].
  cbn [match_here star] in *. cbn [accepts].
  apply N.eqb_neq in Hx as ->. cbn [negb]. by rewrite IH.
Qed.

Lemma opens_nil marker : marker_ok marker → opens marker [] = false.
Proof. by intros [(c & cs & -> & _) _]. Qed.

Lemma starts_space marker s :
  marker_ok marker → starts marker (space :: s) = false.
Proof. intros [(c & cs & -> & Hc) _]. simpl. by rewrite Hc. Qed.

(** On a line, the pattern matches at the head exactly when the line
    opens with spaces and the marker, and then it takes the whole line. *)
Lemma match_comment marker s :
  marker_ok marker → one_line s →
  match_here (comment_re marker) s
  = if opens marker s then Some (length s) else None.
Proof.
  intros Hm Hs. unfold comment_re. cbn [match_here].
  assert (∀ t, one_line t →
    match_here ((One <$> marker) ++ [Star Dot; Eol]) t
    = if starts marker t then Some (length t) else None) as Hones.
  { intros t Ht. rewrite match_ones.
    destruct (starts marker t) eqn:E; [|done].
    apply starts_length in E. rewrite match_rest.
    - simpl. rewrite length_drop. f_equal. lia.
    - rewrite <-(take_drop (length marker) t) in Ht.
      by apply one_line_app in Ht as [_ ?]. }
  induction s as [|x s IH].
  - simpl. by rewrite Hones by done.
  - pose proof Hs as Hxs. apply one_line_cons in Hs as [Hx Hs].
    cbn [star opens accepts].
    destruct (N.eqb_spec x space) as [->|Hsp].
    + rewrite IH by done. destruct (opens marker s); [done|].
      rewrite Hones by done. by rewrite starts_space.
    + by rewrite Hones by done.
Qed.

Lemma line_local_comment marker : marker_ok marker → line_local (comment_re marker).
Proof.
  intros [_ Hm]. unfold line_local, comment_re.
  constructor; [done|]. apply Forall_app. split.
  - by apply Forall_fmap.
  - by repeat constructor.
Qed.

Lemma sub_from_all (re : list item) s :
  match_here re [] = None → sub_from re [] (length s) s = [].
Proof.
  intros Hre. induction s as [|x s IH]; simpl; [by rewrite Hre|done].
Qed.

(** On a line, the substitution cuts at the first position that opens a
    comment. *)
Lemma sub_comment_line marker s :
  marker_ok marker → one_line s →
  sub (comment_re marker) [] s = cut (opens marker) s.
Proof.
  intros Hm. unfold sub. induction s as [|x s IH]; intros Hs.
  - cbn [sub_from cut]. rewrite match_comment by done.
    by rewrite opens_nil.
  - cbn [sub_from cut]. rewrite match_comment by done.
    apply one_line_cons in Hs as [Hx Hs].
    destruct (opens marker (x :: s)).
    + simpl. apply sub_from_all.
      rewrite match_comment by (done || apply one_line_nil).
      by rewrite opens_nil.
    + by rewrite IH.
Qed.

Lemma cut_prefix (m : str → bool) s : cut m s `prefix_of` s.
Proof.
  induction s as [|x s IH]; simpl; [done|].
  destruct (m (x :: s)); [apply prefix_nil|by apply prefix_cons].
Qed.

(** On a text, the substitution cuts every line. *)
Lemma sub_comment marker s :
  marker_ok marker →
  sub (comment_re marker) [] s = unlines (cut (opens marker) <$> lines s).
Proof.
  intros Hm. induction s as [l Hl|l t Hl IH] using line_ind.
  - rewrite lines_one_line by done. simpl. by apply sub_comment_line.
  - rewrite lines_newline by done. rewrite fmap_cons, unlines_cons.
    + rewrite <-IH, <-sub_comment_line by done. unfold sub.
      apply sub_from_newline; [by apply line_local_comment|done|lia].
    + intros H%fmap_nil_inv. by apply lines_not_nil in H.
Qed.

Lemma lines_sub_comment marker s :
  marker_ok marker →
  lines (sub (comment_re marker) [] s) = cut (opens marker) <$> lines s.
Proof.
  intros Hm. rewrite sub_comment by done. apply lines_unlines.
  - intros H%fmap_nil_inv. by apply lines_not_nil in H.
  - apply Forall_fmap. eapply Forall_impl; [apply Forall_one_line_lines|].
    intros l Hl. simpl. eapply one_line_prefix; [apply cut_prefix|done].
Qed.

End comment_re.

(** ** Cutting at the first match *)

Lemma suffix_cons_case {A} (t s : list A) x :
  t `suffix_of` x :: s → t = x :: s ∨ t `suffix_of` s.
Proof.
  intros [[|y k] E]; simpl in E; [by left|right].
  injection E as _ ->. by exists k.
Qed.

Section cut.
Variable m : str → bool.
Hypothesis m_nil : m [] = false.
Hypothesis m_app : ∀ s t, m s = true → m (s ++ t) = true.
Implicit Types (s t p q : str).

Lemma quiet_nil : quiet m [].
Proof. by intros t ->%suffix_nil_inv. Qed.

Lemma quiet_cons x s : quiet m (x :: s) ↔ m (x :: s) = false ∧ quiet m s.
Proof.
  split.
  - intros H. split; [by apply H|].
    intros t Ht. by apply H, suffix_cons_r.
  - intros [Hx Hs] t [->|Ht]%suffix_cons_case; [done|by apply Hs].
Qed.

Lemma cut_id s : quiet m s → cut m s = s.
Proof.
  induction s as [|x s IH]; [done|].
  intros [Hx Hs]%quiet_cons. simpl. rewrite Hx. by rewrite IH.
Qed.

Lemma quiet_prefix p q : q `prefix_of` p → quiet m p → quiet m q.
Proof.
  intros [r ->] Hp t Ht.
  destruct (m t) eqn:E; [|done].
  rewrite <-(Hp (t ++ r)); [by rewrite m_app|by apply suffix_app].
Qed.

Lemma cut_quiet s : quiet m (cut m s).
Proof.
  induction s as [|x s IH]; simpl; [apply quiet_nil|].
  destruct (m (x :: s)) eqn:E; [apply quiet_nil|].
  apply quiet_cons. split; [|done].
  destruct (m (x :: cut m s)) eqn:E'; [|done].
  destruct (cut_prefix m s) as [r Hr].
  pose proof (m_app (x :: cut m s) r E') as H.
  simpl in H. rewrite <-Hr in H. congruence.
Qed.

(** [cut] removes the longest suffix that satisfies [m], if there is one. *)
Lemma cut_spec s :
  (∃ t, s = cut m s ++ t ∧ m t = true ∧
        ∀ t', t' `suffix_of` s → m t' = true → length t' ≤ length t)
  ∨ (cut m s = s ∧ quiet m s).
Proof.
  induction s as [|x s IH]; [right; split; [done|apply quiet_nil]|].
  simpl. destruct (m (x :: s)) eqn:E.
  - left. exists (x :: s). repeat split; [done|].
    intros t' Ht' _. by apply suffix_length.
  - destruct IH as [(t & Hs & Ht & Hmax)|[Hs Hq]].
    + left. exists t. split; [by rewrite Hs at 1|]. split; [done|].
      intros t' [->|Ht']%suffix_cons_case Hm; [congruence|by apply Hmax].
    + right. split; [by rewrite Hs|]. by apply quiet_cons.
Qed.

(** What [cut] removes is empty or satisfies [m]. *)
Lemma cut_removed s : ∃ t, s = cut m s ++ t ∧ (t = [] ∨ m t = true).
Proof.
  destruct (cut_spec s) as [(t & Hs & Ht & _)|[Hs _]].
  - exists t. auto.
  - exists []. rewrite Hs, app_nil_r. auto.
Qed.

(** A match right after a prefix that cannot start one. *)
Lemma cut_app p t :
  (∀ u, u ≠ [] → u `suffix_of` p → m (u ++ t) = false) →
  m t = true → cut m (p ++ t) = p.
Proof.
  intros Hp Ht. induction p as [|x p IH]; simpl.
  - destruct t; [congruence|]. simpl. by rewrite Ht.
  - pose proof (Hp (x :: p) ltac:(done) ltac:(done)) as Hx.
    simpl in Hx. rewrite Hx. f_equal. apply IH.
    intros u Hu Hsuf. apply Hp; [done|by apply suffix_cons_r].
Qed.

Lemma strips_cut (P : str → Prop) s :
  (∀ t, m t = true ↔ P t) → strips P s (cut m s).
Proof.
  intros HP. destruct (cut_spec s) as [(t & Hs & Ht & Hmax)|[Hs Hq]].
  - left. exists t. split; [done|]. split; [by apply HP|].
    intros t' Ht' HPt'. apply Hmax; [done|by apply HP].
  - right. split; [done|]. intros t' Ht' HPt'.
    apply HP in HPt'. rewrite Hq in HPt'; done.
Qed.

End cut.

Lemma quietb_quiet m s : quietb m s = true → quiet m s.
Proof.
  induction s as [|x s IH]; simpl.
  - intros H%negb_true_iff t ->%suffix_nil_inv. done.
  - intros [H%negb_true_iff Hs]%andb_true_iff t [->|Ht]%suffix_cons_case; [done|].
    by apply IH.
Qed.

(** ** The two patterns of the script *)

Section opens.
Implicit Types (cs : list cls) (s t u : str).

Lemma opens_app cs s t : marker_ok cs → opens cs s = true → opens cs (s ++ t) = true.
Proof.
  intros Hcs. induction s as [|x s IH].
  - by rewrite opens_nil.
  - simpl. destruct (N.eqb x space); [done|]. apply (starts_app cs (x :: s)).
Qed.

Lemma opens_spaces cs k u : opens cs (replicate k space ++ u) = opens cs u.
Proof. induction k as [|k IH]; [done|]. simpl. by rewrite IH. Qed.

Lemma opens_starts cs u : marker_ok cs → starts cs u = true → opens cs u = true.
Proof.
  intros Hcs Hu. destruct u as [|x u]; [done|]. simpl.
  destruct (N.eqb_spec x space) as [->|_]; [|done].
  by rewrite starts_space in Hu.
Qed.

(** [opens] says: some spaces, then the marker. *)
Lemma opens_spec cs t :
  marker_ok cs →
  opens cs t = true ↔ ∃ k u, t = replicate k space ++ u ∧ starts cs u = true.
Proof.
  intros Hcs. split.
  - induction t as [|x t IH]; simpl.
    + intros H. by exists 0, [].
    + destruct (N.eqb_spec x space) as [->|_].
      * intros (k & u & -> & Hu)%IH. by exists (S k), u.
      * intros H. by exists 0, (x :: t).
  - intros (k & u & -> & Hu). rewrite opens_spaces. by apply opens_starts.
Qed.

End opens.

Lemma pattern1_shape : pattern1 = comment_re marker1.
Proof. reflexivity. Qed.

Lemma pattern2_shape : pattern2 = comment_re marker2.
Proof. reflexivity. Qed.

Lemma marker1_ok : marker_ok marker1.
Proof. split; [by eexists _, _|]. by repeat constructor. Qed.

Lemma marker2_ok : marker_ok marker2.
Proof. split; [by eexists _, _|]. by repeat constructor. Qed.

Lemma starts_marker1 u :
  starts marker1 u = true ↔
  ∃ d1 d2 rest, is_digit d1 ∧ is_digit d2 ∧
    u = lit "// v" ++ d1 :: lit "." ++ d2 :: lit ":" ++ rest.
Proof.
  unfold is_digit, marker1. eval_lits. split.
  - destruct u as [|x1 [|x2 [|x3 [|x4 [|d1 [|x6 [|d2 [|x8 rest]]]]]]]];
      simpl; rewrite ?andb_false_r; try done.
    intros H. split_andb.
    by exists d1, d2, rest.
  - intros (d1 & d2 & rest & [H1 H1'] & [H2 H2'] & ->). simpl.
    apply N.leb_le in H1, H1', H2, H2'. by rewrite H1, H1', H2, H2'.
Qed.

Lemma starts_marker2 u :
  starts marker2 u = true ↔ ∃ rest, u = lit "// was " ++ rest.
Proof.
  unfold marker2. eval_lits. split.
  - destruct u as [|x1 [|x2 [|x3 [|x4 [|x5 [|x6 [|x7 rest]]]]]]];
      simpl; rewrite ?andb_false_r; try done.
    intros H. split_andb.
    by exists rest.
  - by intros (rest & ->).
Qed.

(** The first pattern matches at the head of a line exactly the texts the
    specification calls a version comment. *)
Lemma opens_version_comment t : opens marker1 t = true ↔ version_comment t.
Proof.
  rewrite (opens_spec _ _ marker1_ok). unfold version_comment. split.
  - intros (k & u & -> & (d1 & d2 & rest & ? & ? & ->)%starts_marker1).
    by exists k, d1, d2, rest.
  - intros (k & d1 & d2 & rest & ? & ? & ->). eexists k, _. split; [done|].
    apply starts_marker1. by exists d1, d2, rest.
Qed.

Lemma opens_was_comment t : opens marker2 t = true ↔ was_comment t.
Proof.
  rewrite (opens_spec _ _ marker2_ok). unfold was_comment. split.
  - intros (k & u & -> & (rest & ->)%starts_marker2). by exists k, rest.
  - intros (k & rest & ->). eexists k, _. split; [done|].
    apply starts_marker2. by exists rest.
Qed.

Lemma quiet_version_comment s :
  quiet (opens marker1) s ↔ ∀ t, t `suffix_of` s → ¬ version_comment t.
Proof.
  unfold quiet. split; intros H t Ht.
  - rewrite <-opens_version_comment, H by done. done.
  - specialize (H t Ht). rewrite <-opens_version_comment in H.
    by destruct (opens marker1 t).
Qed.

Lemma quiet_was_comment s :
  quiet (opens marker2) s ↔ ∀ t, t `suffix_of` s → ¬ was_comment t.
Proof.
  unfold quiet. split; intros H t Ht.
  - rewrite <-opens_was_comment, H by done. done.
  - specialize (H t Ht). rewrite <-opens_was_comment in H.
    by destruct (opens marker2 t).
Qed.

(** Line by line, each substitution is a cut. *)
Lemma lines_strip_version s :
  lines (strip_version s) = cut (opens marker1) <$> lines s.
Proof. apply (lines_sub_comment marker1), marker1_ok. Qed.

Lemma lines_strip_was s :
  lines (strip_was s) = cut (opens marker2) <$> lines s.
Proof. apply (lines_sub_comment marker2), marker2_ok. Qed.

Lemma lines_clean s : lines (clean s) = clean_line <$> lines s.
Proof.
  unfold clean. cbv zeta.
  by rewrite lines_strip_was, lines_strip_version, <-list_fmap_compose.
Qed.

Lemma opens1_nil : opens marker1 [] = false.
Proof. reflexivity. Qed.

Lemma opens2_nil : opens marker2 [] = false.
Proof. reflexivity. Qed.

Lemma opens1_app s t : opens marker1 s = true → opens marker1 (s ++ t) = true.
Proof. apply opens_app, marker1_ok. Qed.

Lemma opens2_app s t : opens marker2 s = true → opens marker2 (s ++ t) = true.
Proof. apply opens_app, marker2_ok. Qed.

Lemma clean_line_prefix l : clean_line l `prefix_of` l.
Proof.
  unfold clean_line. etrans; apply cut_prefix.
Qed.

(** A cleaned line holds no comment of either shape. *)
Lemma clean_line_quiet l :
  quiet (opens marker1) (clean_line l) ∧ quiet (opens marker2) (clean_line l).
Proof.
  split.
  - apply (quiet_prefix _ opens1_app (cut (opens marker1) l)).
    + apply cut_prefix.
    + apply cut_quiet; [done|apply opens1_app].
  - apply cut_quiet; [done|apply opens2_app].
Qed.

Lemma clean_line_id l :
  quiet (opens marker1) l → quiet (opens marker2) l → clean_line l = l.
Proof.
  intros H1 H2. unfold clean_line. rewrite (cut_id _ l H1). by apply cut_id.
Qed.

(** An empty replacement never makes the text longer. *)
Lemma length_sub_from (re : list item) s k : length (sub_from re [] k s) ≤ length s.
Proof.
  revert k. induction s as [|x s IH]; intros [|k]; simpl; try done.
  - by destruct (match_here re []).
  - destruct (match_here re (x :: s)) as [[|n]|]; simpl.
    + specialize (IH 0). lia.
    + specialize (IH n). lia.
    + specialize (IH 0). lia.
  - specialize (IH k). lia.
Qed.

(** A [// was ] comment that shows after the first substitution was
    already in the line before it. *)
Lemma was_comment_before l :
  quiet (opens marker2) l → quiet (opens marker2) (cut (opens marker1) l).
Proof. apply (quiet_prefix _ opens2_app), cut_prefix. Qed.

(** ** Sample runs *)

Example match_here_comment :
  match_here pattern1 (lit "  // v3.0: Reduced from 1") = Some 25
  ∧ match_here pattern1 (lit ", // v3.0: Reduced from 1") = None
  ∧ match_here pattern2 (lit " // was 5") = Some 9
  ∧ match_here pattern2 (lit " // was") = None.
Proof. by vm_compute. Qed.

(** Three lines: the version comment goes with the spaces before it, the
    line that held only a comment stays as an empty line, and what follows
    a tab is cut after the tab. *)
Example clean_three_lines :
  clean (lit "a: 1,  // v3.0: b" ++ newline :: lit "  // was 2" ++ newline
         :: chr "009" :: lit "// v4.1:")
  = lit "a: 1," ++ newline :: newline :: [chr "009"].
Proof. by vm_compute. Qed.

(** Markers that do not fit are left alone: two spaces after [//], two
    digits, a capital, [// was] without its space. *)
Example clean_near_misses :
  clean (lit "a //  v1.0: x // wasy // v12.3: // V1.0: k // was")
  = lit "a //  v1.0: x // wasy // v12.3: // V1.0: k // was".
Proof. by vm_compute. Qed.

(** The order of the two substitutions shows on this line: the second one
    alone would stop at the version comment. *)
Example clean_in_sequence :
  clean (lit "a // was b // v3.0: c") = lit "a"
  ∧ strip_version (lit "a // was b // v3.0: c") = lit "a // was b"
  ∧ strip_was (lit "a // v1.0: x // was y") = lit "a // v1.0: x"
  ∧ clean (lit "a // v1.0: x // was y") = lit "a".
Proof. by vm_compute. Qed.

(** ** The claims about the transformation *)

(** C1: the first substitution removes from every line exactly its longest
    suffix made of spaces, [// v], a digit, [.], a digit, [:] and the rest of
    the line, and leaves a line without such a suffix unchanged. *)
Theorem strip_version_per_line (content : str) :
  Forall2 (strips version_comment) (lines content) (lines (strip_version content)).
Proof.
  rewrite lines_strip_version. apply Forall2_fmap_r, Forall_Forall2_diag.
  apply Forall_forall. intros l _.
  apply strips_cut; [done|apply opens_version_comment].
Qed.

(** C2: the second substitution runs on the output of the first: every
    line goes through the version-comment removal and then, as it then
    stands, through the [// was ] removal, and no line of the result still
    holds a [// was ] comment. *)
Theorem strip_was_after_strip_version (content : str) :
  clean content = strip_was (strip_version content)
  ∧ Forall2 (λ line out, ∃ mid, strips version_comment line mid
                                ∧ strips was_comment mid out)
      (lines content) (lines (clean content))
  ∧ Forall (λ out, ∀ t, t `suffix_of` out → ¬ was_comment t)
      (lines (clean content)).
Proof.
  split; [done|]. rewrite lines_clean. split.
  - apply Forall2_fmap_r, Forall_Forall2_diag, Forall_forall. intros l _.
    exists (cut (opens marker1) l). split.
    + apply strips_cut; [done|apply opens_version_comment].
    + apply strips_cut; [done|apply opens_was_comment].
  - apply Forall_fmap, Forall_forall. intros l _. simpl.
    apply quiet_was_comment, clean_line_quiet.
Qed.

(** C3: cleaning is idempotent. *)
Theorem clean_idempotent (content : str) : clean (clean content) = clean content.
Proof.
  apply lines_inj. rewrite !lines_clean, <-list_fmap_compose.
  apply list_fmap_ext. intros _ l _. simpl.
  apply clean_line_id; apply clean_line_quiet.
Qed.

(** C5: a line holding no comment of either shape comes out identical; the
    lines are as many as before, and each output line is its input line
    without a suffix that is empty or one of the two comments, so what is
    left of a line, even nothing or white space, stays as it is. *)
Theorem clean_other_lines (content : str) :
  Forall2 (λ line out,
      (∀ t, t `suffix_of` line → ¬ version_comment t ∧ ¬ was_comment t) →
      out = line)
    (lines content) (lines (clean content))
  ∧ length (lines (clean content)) = length (lines content)
  ∧ Forall2 (λ line out,
      ∃ t, line = out ++ t ∧ (t = [] ∨ version_comment t ∨ was_comment t))
    (lines content) (lines (clean content)).
Proof.
  rewrite lines_clean. split; [|split].
  - apply Forall2_fmap_r, Forall_Forall2_diag, Forall_forall. intros l _ Hl.
    apply clean_line_id.
    + apply quiet_version_comment. intros t Ht. by apply Hl.
    + apply quiet_was_comment. intros t Ht. by apply Hl.
  - by rewrite length_fmap.
  - apply Forall2_fmap_r, Forall_Forall2_diag, Forall_forall. intros l _.
    unfold clean_line.
    destruct (cut_removed (opens marker1) opens1_nil l) as (t1 & H1 & Ht1).
    destruct (cut_removed (opens marker2) opens2_nil (cut (opens marker1) l))
      as (t2 & H2 & Ht2).
    exists (t2 ++ t1). split.
    { rewrite app_assoc, <-H2. done. }
    destruct Ht2 as [->|Ht2].
    + destruct Ht1 as [->|Ht1]; [by left|].
      right; left. by apply opens_version_comment.
    + right; right. apply opens_was_comment.
      by apply opens2_app.
Qed.

(** C6: the two scenario lines of the specification. *)
Theorem clean_scenarios :
  clean (lit "timeout: 5000,  // v3.0: Reduced from 10000") = lit "timeout: 5000,"
  ∧ clean (lit "retries: 3, // was retries: 5") = lit "retries: 3,".
Proof. split; vm_compute; reflexivity. Qed.

(** C10: every output line is a prefix of its input line; the newlines are
    as many as before, and the output is no longer than the input. *)
Theorem clean_prefix_per_line (content : str) :
  Forall2 (λ line out, out `prefix_of` line) (lines content) (lines (clean content))
  ∧ length (filter (λ x, x = newline) (clean content))
    = length (filter (λ x, x = newline) content)
  ∧ length (clean content) ≤ length content.
Proof.
  split; [|split].
  - rewrite lines_clean. apply Forall2_fmap_r, Forall_Forall2_diag, Forall_forall.
    intros l _. apply clean_line_prefix.
  - apply Nat.succ_inj. rewrite <-!length_lines, lines_clean.
    by rewrite length_fmap.
  - unfold clean, strip_was, strip_version, sub. cbv zeta.
    etrans; apply length_sub_from.
Qed.

(** *** A version comment after a prefix *)

(** A marker cannot start inside [v] and end inside a version comment that
    follows [v], unless [v] ends with a space. *)
Lemma starts_straddle v t :
  v ≠ [] → last v ≠ Some space → starts marker1 v = false →
  version_comment t → starts marker1 (v ++ t) = false.
Proof.
  intros Hv Hlast Hs (k & d1 & d2 & rest & _ & _ & ->).
  unfold marker1 in *. revert Hlast. eval_lits. intros Hlast.
  destruct v as [|x1 [|x2 [|x3 [|x4 [|x5 [|x6 [|x7 [|x8 v]]]]]]]];
    [done|..|exact Hs];
    destruct k as [|[|k]]; simpl;
    apply not_true_is_false; intros Hm; split_andb; simpl in *; done.
Qed.

Lemma opens_straddle u t :
  u ≠ [] → last u ≠ Some space → opens marker1 u = false →
  version_comment t → opens marker1 (u ++ t) = false.
Proof.
  intros Hu Hlast Ho Ht. induction u as [|x u IH]; [done|].
  cbn [opens app] in *. destruct (N.eqb_spec x space) as [->|Hx].
  - destruct u as [|y u]; [by destruct Hlast|]. apply IH; [done| |done].
    by rewrite last_cons_cons in Hlast.
  - exact (starts_straddle (x :: u) t Hu Hlast Ho Ht).
Qed.

Lemma last_suffix {A} (u p : list A) : u ≠ [] → u `suffix_of` p → last u = last p.
Proof.
  intros Hu [k ->]. rewrite last_app.
  destruct (last u) eqn:E; [done|]. by apply last_None in E.
Qed.

Lemma strip_version_line l : one_line l → strip_version l = cut (opens marker1) l.
Proof. apply (sub_comment_line marker1), marker1_ok. Qed.

Lemma strip_version_after prefix t :
  one_line (prefix ++ t) → version_comment t →
  (∀ u, u `suffix_of` prefix → ¬ version_comment u) →
  last prefix ≠ Some space →
  strip_version (prefix ++ t) = prefix.
Proof.
  intros Hl Ht Hq Hlast. rewrite strip_version_line by done.
  apply cut_app; [done| |by apply opens_version_comment].
  intros u Hu Hsuf. apply opens_straddle; [done| |  |done].
  - by rewrite (last_suffix u prefix).
  - by apply (proj2 (quiet_version_comment prefix)).
Qed.

Lemma one_line_lit_v12 : one_line (lit "// v1.2:").
Proof. by apply (bool_decide_unpack _). Qed.

Lemma version_comment_v12 k note :
  version_comment (replicate k space ++ lit "// v1.2:" ++ note).
Proof.
  exists k, (chr "1"), (chr "2"), note. unfold is_digit. eval_lits.
  repeat split; lia.
Qed.

(** C4, as the specification words it, fails when the prefix holds a
    version comment of its own: the cut is at the first one. *)
Lemma strip_version_prefix_not_kept :
  one_line (lit "x: 1, // v1.0: a") ∧ one_line (lit " note")
  ∧ strip_version (lit "x: 1, // v1.0: a" ++ replicate 1 space ++ lit "// v1.2:" ++ lit " note")
    = lit "x: 1,"
  ∧ lit "x: 1," ≠ lit "x: 1, // v1.0: a".
Proof.
  repeat split; try (by apply (bool_decide_unpack _)); by vm_compute.
Qed.

(** Spaces at the end of the prefix belong to the run the pattern takes. *)
Example strip_version_prefix_space :
  strip_version (lit "x: 1, " ++ replicate 1 space ++ lit "// v1.2:" ++ lit " note")
  = lit "x: 1,".
Proof. by vm_compute. Qed.

(** C4, amended: for a line made of a prefix, one or more spaces,
    [// v1.2:] and a note, the first substitution returns the prefix
    exactly, provided the prefix holds no version comment itself and does
    not end with a space. *)
Theorem strip_version_keeps_prefix (prefix note : str) (k : nat) :
  one_line prefix → one_line note →
  (∀ t, t `suffix_of` prefix → ¬ version_comment t) →
  last prefix ≠ Some space →
  strip_version (prefix ++ replicate (S k) space ++ lit "// v1.2:" ++ note) = prefix.
Proof.
  intros Hp Hn Hq Hlast. apply strip_version_after; [|apply version_comment_v12|done..].
  rewrite !one_line_app. repeat split; [done| |apply one_line_lit_v12|done].
  intros ?%elem_of_replicate_inv. done.
Qed.

Lemma strip_version_keeps_prefix_witness :
  strip_version (lit "timeout: 5000," ++ replicate 2 space ++ lit "// v1.2:" ++ lit " note")
  = lit "timeout: 5000,".
Proof.
  apply (strip_version_keeps_prefix (lit "timeout: 5000,") (lit " note") 1).
  - by apply (bool_decide_unpack _).
  - by apply (bool_decide_unpack _).
  - apply quiet_version_comment, quietb_quiet. vm_compute. reflexivity.
  - vm_compute. discriminate.
Defined.

(** ** The claims about the run *)

Lemma main_ok w f s :
  fs w !! input_file = Some f → readable f = true → writable f = true →
  body f = Text s →
  main w = (inr (), {| fs := <[output_file := set_body f (Text (clean s))]> (fs w);
                       stdout := stdout w ++ report |}).
Proof.
  intros Hf Hr Hw Hb.
  unfold main, mbind, IO_bind, open_r, read, open_w, write, print.
  rewrite Hf, Hr, Hb. simpl.
  change output_file with input_file. rewrite Hf, Hw. simpl.
  rewrite lookup_insert_eq. unfold set_body at 1. simpl.
  rewrite insert_insert_eq, <-app_assoc. done.
Qed.

Lemma main_inv w w' :
  main w = (inr (), w') →
  ∃ f s, fs w !! input_file = Some f ∧ readable f = true ∧ writable f = true
         ∧ body f = Text s.
Proof.
  unfold main, mbind, IO_bind, open_r, read, open_w.
  destruct (fs w !! input_file) as [f|] eqn:Hf; [|done].
  destruct (readable f) eqn:Hr; [|done].
  destruct (body f) as [s|] eqn:Hb; [|done]. simpl.
  change output_file with input_file. rewrite Hf.
  destruct (writable f) eqn:Hw; [|done].
  intros _. by exists f, s.
Qed.

(** C7: on an empty file the text written back is empty, so the file is as
    it was, and the two report lines are printed. *)
Theorem main_empty_file (w : world) (f : inode) :
  fs w !! input_file = Some f → readable f = true → writable f = true →
  body f = Text [] →
  clean [] = []
  ∧ main w = (inr (), {| fs := fs w; stdout := stdout w ++ report |})
  ∧ body <$> fs (main w).2 !! output_file = Some (Text []).
Proof.
  intros Hf Hr Hw Hb. split; [done|].
  rewrite (main_ok w f []) by done.
  assert (set_body f (Text (clean [])) = f) as ->.
  { destruct f; simpl in *. by subst. }
  rewrite insert_id by done. split; [done|]. simpl.
  change output_file with input_file. by rewrite Hf, <-Hb.
Qed.

(** C8: when the read fails, the run ends with that error and the world,
    files and output, is as it was. *)
Theorem main_read_fails (w : world) (e : exn) :
  read_fails w e → main w = (inl e, w).
Proof.
  unfold main, mbind, IO_bind, open_r, read.
  intros [Hf|f Hf Hr|f Hf Hr Hb]; rewrite Hf; [done|..]; rewrite Hr; [done|].
  by rewrite Hb.
Qed.

(** C9: a run that succeeds prints the two report lines, in this order and
    nothing else; it reads and writes the same fixed path, and leaves every
    other file as it was. *)
Theorem main_report (w w' : world) :
  main w = (inr (), w') →
  stdout w' = stdout w ++ [ "Cleaned config file: backend/config/essenceTap.js";
                            "Removed all inline version comments" ]
  ∧ input_file = "backend/config/essenceTap.js"
  ∧ output_file = "backend/config/essenceTap.js"
  ∧ (∀ path, path ≠ "backend/config/essenceTap.js" → fs w' !! path = fs w !! path)
  ∧ (∃ f s, fs w !! "backend/config/essenceTap.js" = Some f ∧ body f = Text s
            ∧ fs w' !! "backend/config/essenceTap.js" = Some (set_body f (Text (clean s)))).
Proof.
  intros Hrun. destruct (main_inv w w' Hrun) as (f & s & Hf & Hr & Hw & Hb).
  rewrite (main_ok w f s) in Hrun by done. injection Hrun as <-. simpl.
  repeat split; try done.
  - intros path Hp. by rewrite lookup_insert_ne.
  - exists f, s. repeat split; try done. apply lookup_insert_eq.
Qed.

Lemma main_empty_file_witness :
  clean [] = []
  ∧ main empty_config = (inr (), {| fs := fs empty_config; stdout := [] ++ report |})
  ∧ body <$> fs (main empty_config).2 !! output_file = Some (Text []).
Proof.
  apply (main_empty_file empty_config (Inode true true (Text []))); reflexivity.
Defined.

Lemma main_read_fails_witness :
  main {| fs := ∅; stdout := [] |}
  = (inl FileNotFoundError, {| fs := ∅; stdout := [] |}).
Proof.
  apply main_read_fails. apply read_missing. apply lookup_empty.
Defined.

Lemma main_report_witness :
  stdout (main sample_config).2
  = [] ++ [ "Cleaned config file: backend/config/essenceTap.js";
            "Removed all inline version comments" ]
  ∧ input_file = "backend/config/essenceTap.js"
  ∧ output_file = "backend/config/essenceTap.js"
  ∧ (∀ path, path ≠ "backend/config/essenceTap.js" →
             fs (main sample_config).2 !! path = fs sample_config !! path)
  ∧ (∃ f s, fs sample_config !! "backend/config/essenceTap.js" = Some f
            ∧ body f = Text s
            ∧ fs (main sample_config).2 !! "backend/config/essenceTap.js"
              = Some (set_body f (Text (clean s)))).
Proof.
  apply (main_report sample_config (main sample_config).2).
  vm_compute. reflexivity.
Defined.

(** ** Further properties of the transformation *)

Lemma lines_app_newline (a b : str) :
  lines (a ++ newline :: b) = lines a ++ lines b.
Proof.
  induction a as [l Hl|l t Hl IH] using line_ind.
  - by rewrite lines_newline, (lines_one_line l).
  - rewrite <-app_assoc. cbn [app].
    by rewrite (lines_newline l), (lines_newline l), IH.
Qed.

(** X1: the lines are cleaned independently of each other: cleaning two
    texts joined by a newline is cleaning each and joining the results. *)
Theorem clean_line_by_line (a b : str) :
  clean (a ++ newline :: b) = clean a ++ newline :: clean b.
Proof.
  apply lines_inj.
  by rewrite lines_clean, !lines_app_newline, fmap_app, !lines_clean.
Qed.

(** X2: no line of the cleaned text holds a version comment: the second
    substitution does not bring back what the first removed. *)
Theorem clean_no_version_comment (content : str) :
  Forall (λ out, ∀ t, t `suffix_of` out → ¬ version_comment t)
    (lines (clean content)).
Proof.
  rewrite lines_clean. apply Forall_fmap, Forall_forall. intros l _. simpl.
  apply quiet_version_comment, clean_line_quiet.
Qed.

Lemma fmap_fixed {A} (f : A → A) (l : list A) :
  f <$> l = l ↔ Forall (λ x, f x = x) l.
Proof.
  induction l as [|x l IH]; [by split; [constructor|]|].
  rewrite fmap_cons, Forall_cons, <-IH. split.
  - intros H. by simplify_eq.
  - intros [Hx Hl]. by rewrite Hx, Hl.
Qed.

(** X3: cleaning leaves a text as it is exactly when none of its lines
    holds a comment of either shape. *)
Theorem clean_fixed_iff (content : str) :
  clean content = content ↔
  Forall (λ line, ∀ t, t `suffix_of` line →
                       ¬ version_comment t ∧ ¬ was_comment t)
    (lines content).
Proof.
  split.
  - intros H. apply (f_equal lines) in H. rewrite lines_clean in H.
    apply fmap_fixed in H. eapply Forall_impl; [exact H|].
    intros l Hl t Ht. simpl in Hl.
    destruct (clean_line_quiet l) as [H1 H2]. rewrite Hl in H1, H2.
    split.
    + by apply (proj1 (quiet_version_comment l)).
    + by apply (proj1 (quiet_was_comment l)).
  - intros H. apply lines_inj. rewrite lines_clean. apply fmap_fixed.
    eapply Forall_impl; [exact H|]. intros l Hl. simpl.
    apply clean_line_id.
    + apply quiet_version_comment. intros t Ht. by apply Hl.
    + apply quiet_was_comment. intros t Ht. by apply Hl.
Qed.

Lemma occurs_line (p l s : str) : l ∈ lines s → occurs p l → occurs p s.
Proof.
  intros Hl Ho. revert Hl.
  induction s as [l' Hl'|l' t Hl' IH] using line_ind.
  - rewrite lines_one_line by done. by intros ->%list_elem_of_singleton.
  - rewrite lines_newline by done. intros [->|Hin]%elem_of_cons.
    + destruct Ho as (a & b & ->).
      exists a, (b ++ newline :: t). by rewrite <-!app_assoc.
    + destruct (IH Hin) as (a' & b' & ->).
      exists (l' ++ newline :: a'), b'. by rewrite <-app_assoc.
Qed.

Lemma occurs_suffix (p t s : str) : t `suffix_of` s → occurs p t → occurs p s.
Proof.
  intros [k ->] (a & b & ->). exists (k ++ a), b. by rewrite <-app_assoc.
Qed.

Lemma version_comment_occurs t : version_comment t → occurs (lit "// ") t.
Proof.
  intros (k & d1 & d2 & rest & _ & _ & ->).
  by exists (replicate k space), (lit "v" ++ d1 :: lit "." ++ d2 :: lit ":" ++ rest).
Qed.

Lemma was_comment_occurs t : was_comment t → occurs (lit "// ") t.
Proof.
  intros (k & rest & ->).
  by exists (replicate k space), (lit "was " ++ rest).
Qed.

Lemma occursb_prefix (p s : str) : p `prefix_of` s → occursb p s = true.
Proof.
  intros H. destruct s; simpl; apply orb_true_iff; left;
    by apply bool_decide_eq_true_2.
Qed.

Lemma occursb_occurs (p s : str) : occurs p s → occursb p s = true.
Proof.
  intros (a & b & ->). induction a as [|x a IH].
  - apply occursb_prefix. by exists b.
  - simpl. apply orb_true_iff. by right.
Qed.

(** X4: a text in which two slashes are nowhere followed by a space is
    left as it is: both patterns need [// ] to match. *)
Theorem clean_without_slashes (content : str) :
  ¬ occurs (lit "// ") content → clean content = content.
Proof.
  intros Hno. apply clean_fixed_iff, Forall_forall. intros l Hl t Ht.
  split; intros Hc; apply Hno, (occurs_line _ l); try done;
    apply (occurs_suffix _ t); try done.
  - by apply version_comment_occurs.
  - by apply was_comment_occurs.
Qed.

Lemma clean_without_slashes_witness :
  clean (lit "api: 'http://tap.io/v1.0:', //v3.0: x")
  = lit "api: 'http://tap.io/v1.0:', //v3.0: x".
Proof.
  apply clean_without_slashes.
  intros H%occursb_occurs. vm_compute in H. discriminate.
Defined.

(** ** Further properties of the run *)

Lemma set_body_set_body f a b : set_body (set_body f a) b = set_body f b.
Proof. done. Qed.


(** Every run ends in one of two ways: an exception with the world as it
    was, or the rewrite of the one file and the report. *)
Lemma main_cases w :
  (∃ e, main w = (inl e, w))
  ∨ (∃ f s, fs w !! input_file = Some f ∧ readable f = true
            ∧ writable f = true ∧ body f = Text s
            ∧ main w = (inr (), {| fs := <[output_file := set_body f (Text (clean s))]> (fs w);
                                   stdout := stdout w ++ report |})).
Proof.
  destruct (fs w !! input_file) as [f|] eqn:Hf.
  2: { left. exists FileNotFoundError. by apply main_read_fails, read_missing. }
  destruct (readable f) eqn:Hr.
  2: { left. exists PermissionError. by apply main_read_fails, (read_denied _ f). }
  destruct (body f) as [s|] eqn:Hb.
  2: { left. exists UnicodeDecodeError. by apply main_read_fails, (read_not_utf8 _ f). }
  destruct (writable f) eqn:Hw.
  - right. exists f, s. repeat split; try done. by apply main_ok.
  - left. exists PermissionError.
    unfold main, mbind, IO_bind, open_r, read, open_w.
    rewrite Hf, Hr, Hb. simpl. change output_file with input_file.
    by rewrite Hf, Hw.
Qed.

(** X5: a file that can be read but not written: the opening for writing
    raises [PermissionError] before anything is truncated; the file is as
    it was and nothing is printed. *)
Theorem main_write_denied (w : world) (f : inode) (s : str) :
  fs w !! input_file = Some f → readable f = true → body f = Text s →
  writable f = false →
  main w = (inl PermissionError, w).
Proof.
  intros Hf Hr Hb Hw.
  unfold main, mbind, IO_bind, open_r, read, open_w.
  rewrite Hf, Hr, Hb. simpl. change output_file with input_file.
  by rewrite Hf, Hw.
Qed.

Lemma main_write_denied_witness :
  main read_only_config = (inl PermissionError, read_only_config).
Proof.
  apply (main_write_denied read_only_config
           (Inode true false (Text (lit "retries: 3, // was retries: 5")))
           (lit "retries: 3, // was retries: 5")); reflexivity.
Defined.

(** X6: a second run after a successful one succeeds too, leaves every
    file as the first run left it and prints the report once more. *)
Theorem main_twice (w w1 : world) :
  main w = (inr (), w1) →
  main w1 = (inr (), {| fs := fs w1; stdout := stdout w1 ++ report |}).
Proof.
  intros Hrun. destruct (main_inv w w1 Hrun) as (f & s & Hf & Hr & Hw & Hb).
  rewrite (main_ok w f s) in Hrun by done. injection Hrun as <-.
  rewrite (main_ok _ (set_body f (Text (clean s))) (clean s)); try done.
  - simpl. change output_file with input_file.
    by rewrite insert_insert_eq, set_body_set_body, clean_idempotent.
  - simpl. change output_file with input_file. apply lookup_insert_eq.
Qed.

Lemma main_twice_witness :
  main (main sample_config).2
  = (inr (), {| fs := fs (main sample_config).2;
                stdout := stdout (main sample_config).2 ++ report |}).
Proof.
  apply (main_twice sample_config (main sample_config).2).
  vm_compute. reflexivity.
Defined.

(** X7: no run, successful or not, creates or removes a file, and none
    changes a file other than the one at the fixed path. *)
Theorem main_keeps_files (w : world) :
  dom (fs (main w).2) = dom (fs w)
  ∧ ∀ path, path ≠ "backend/config/essenceTap.js" →
            fs (main w).2 !! path = fs w !! path.
Proof.
  destruct (main_cases w) as [[e ->]|(f & s & Hf & _ & _ & _ & ->)]; [done|].
  simpl. split.
  - rewrite dom_insert_L. apply (elem_of_dom_2 (D := gset string)) in Hf.
    change output_file with input_file.
    apply subseteq_union_1_L. by apply singleton_subseteq_l.
  - intros path Hp. by rewrite lookup_insert_ne.
Qed.



